(** * seqan3::alignment_range: a lazy, single-pass input range over an executor

    Shallow embedding of [include/seqan3/alignment/pairwise/alignment_range.hpp].

    - The template parameter [alignment_executor_type] is the class [Executor]:
      a state type with its [value_type] and the member [bump].
    - [alignment_range] objects live in a store ([gmap loc]), because iterators
      hold a raw pointer [range_ptr] to them and mutate them through it.
    - A member function that can throw or run into undefined behaviour returns
      an [outcome]: [Ok] with the store after the call, [Throw] with the store
      at the point of the throw, or [Undefined] (failed [assert], null or
      dangling pointer). *)

From stdpp Require Import base option gmap strings list.

Set Default Proof Using "Type".

(** ** The executor interface *)

(** What [alignment_range] uses of [alignment_executor_type]:
    [value_type], [bump()] returning [std::optional<value_type>] and the
    executor after the call, value-initialisation [value_type{}] and the state
    a [value_type] is left in after being moved from. *)
Class Executor (E : Type) := {
  value_type : Type;
  bump : E → option value_type * E;
  value_init : value_type;
  moved_from : value_type → value_type;
}.
Global Hint Mode Executor ! : typeclass_instances.
Arguments value_type E {_}.

(** The executor after [n] calls of [bump]. *)
Fixpoint after_pulls `{Executor E} (n : nat) (e : E) : E :=
  match n with
  | O => e
  | S n' => after_pulls n' (snd (bump e))
  end.

(** What the [n]-th call of [bump] (counted from 0) returns. *)
Definition pull_result `{Executor E} (n : nat) (e : E) : option (value_type E) :=
  fst (bump (after_pulls n e)).

(** The contract of [bump]: once it has returned an empty optional, every
    later call returns an empty optional too. *)
Definition exhaustion_is_permanent `{Executor E} (e : E) : Prop :=
  ∀ n, pull_result n e = None → pull_result (S n) e = None.

(** *** Two executors to run the range on *)

(** An executor over a buffer of precomputed results: [bump] hands them out
    front to back and returns the empty optional at the end. *)
Definition list_bump {V : Type} (buf : list V) : option V * list V :=
  match buf with
  | [] => (None, [])
  | v :: buf' => (Some v, buf')
  end.

#[export] Instance list_executor : Executor (list nat) := {|
  value_type := nat;
  bump := list_bump;
  value_init := 0;
  moved_from := λ v, v;
|}.

(** An executor that counts how often its [bump] is called. *)
Record counted (E : Type) := Counted { inner : E; pulls : nat }.
Arguments Counted {E} _ _.
Arguments inner {E} _.
Arguments pulls {E} _.

Definition counted_bump `{Executor E} (c : counted E)
  : option (value_type E) * counted E :=
  let r := bump (inner c) in
  (fst r, Counted (snd r) (S (pulls c))).

#[export] Instance counted_executor `{Executor E} : Executor (counted E) := {|
  value_type := value_type E;
  bump := counted_bump;
  value_init := value_init (E := E);
  moved_from := moved_from (E := E);
|}.

(** ** Outcomes of member functions *)

Inductive exception := runtime_error (what : string).

Inductive outcome (S A : Type) :=
  | Ok (a : A) (s : S)
  | Throw (e : exception) (s : S)
  | Undefined.
Arguments Ok {S A} a s.
Arguments Throw {S A} e s.
Arguments Undefined {S A}.

Definition bind {S A B} (m : outcome S A) (k : A → S → outcome S B)
  : outcome S B :=
  match m with
  | Ok a s => k a s
  | Throw e s => Throw e s
  | Undefined => Undefined
  end.

Definition no_buffer : exception :=
  runtime_error "No alignment execution buffer available.".

(** ** alignment_range *)

Definition loc := positive.

Section Range.
Context `{Executor E}.

(** [std::unique_ptr<alignment_executor_type> alignment_executor{}] is
    [None] when null; [value_type cache{}]. *)
Record alignment_range := AlignmentRange {
  alignment_executor : option E;
  cache : value_type E;
}.

(** [alignment_range() = default]. *)
Definition default_range : alignment_range :=
  {| alignment_executor := None; cache := value_init |}.

(** [explicit alignment_range(alignment_executor_type && _alignment_executor)]. *)
Definition make_range (e : E) : alignment_range :=
  {| alignment_executor := Some e; cache := value_init |}.

(** [bool next()]: the thrown exception, or the returned flag with the
    range after the call. *)
Definition next (r : alignment_range) : exception + bool * alignment_range :=
  match alignment_executor r with
  | None => inl no_buffer
  | Some e =>
      let (opt, e') := bump e in
      match opt with
      | Some v => inr (true, {| alignment_executor := Some e'; cache := v |})
      | None => inr (false, {| alignment_executor := Some e'; cache := cache r |})
      end
  end.

(** The defaulted move operations, memberwise: the target receives the
    [unique_ptr] and the cache, the source keeps a null [unique_ptr] and a
    moved-from cache. Returns (target, source). *)
Definition move_range (src : alignment_range)
  : alignment_range * alignment_range :=
  ({| alignment_executor := alignment_executor src; cache := cache src |},
   {| alignment_executor := None; cache := moved_from (cache src) |}).

(** *** Ranges in the store *)

(** [next()] called on the range object at [l]. *)
Definition range_next (l : loc) (h : gmap loc alignment_range)
  : outcome (gmap loc alignment_range) bool :=
  match h !! l with
  | None => Undefined
  | Some r =>
      match next r with
      | inl e => Throw e h
      | inr (b, r') => Ok b (<[l := r']> h)
      end
  end.

(** [alignment_range(alignment_range &&)] / [operator=(alignment_range &&)]:
    the object at [dst] is (re)built from the one at [src], a different
    object. [None]: there is no range at [src], or [dst] is [src] (what a
    move onto itself does to the cache depends on [value_type] and is left
    out). *)
Definition range_move (dst src : loc) (h : gmap loc alignment_range)
  : option (gmap loc alignment_range) :=
  match h !! src with
  | None => None
  | Some r =>
      if decide (dst = src) then None
      else Some (<[dst := fst (move_range r)]> (<[src := snd (move_range r)]> h))
  end.

(** ** alignment_range_iterator *)

(** [alignment_range * range_ptr{}] and [bool at_end{true}]. *)
Record alignment_range_iterator := AlignmentRangeIterator {
  range_ptr : option loc;
  at_end : bool;
}.

(** [alignment_range_iterator() = default]. *)
Definition default_iterator : alignment_range_iterator :=
  {| range_ptr := None; at_end := true |}.

(** [operator++()]: [assert(range_ptr != nullptr); at_end = !range_ptr->next();].
    Returns this iterator after the call. *)
Definition pre_incr (it : alignment_range_iterator) (h : gmap loc alignment_range)
  : outcome (gmap loc alignment_range) alignment_range_iterator :=
  match range_ptr it with
  | None => Undefined
  | Some l =>
      bind (range_next l h)
           (λ b h', Ok {| range_ptr := range_ptr it; at_end := negb b |} h')
  end.

(** [operator++(int)]: calls the pre-increment on this iterator. *)
Definition post_incr (it : alignment_range_iterator) (h : gmap loc alignment_range)
  : outcome (gmap loc alignment_range) alignment_range_iterator :=
  pre_incr it h.

(** [alignment_range_iterator(alignment_range & range) : range_ptr(&range)]
    whose body pre-increments the new iterator (fetch the next element). *)
Definition iterator_from (l : loc) (h : gmap loc alignment_range)
  : outcome (gmap loc alignment_range) alignment_range_iterator :=
  pre_incr {| range_ptr := Some l; at_end := true |} h.

(** [alignment_range::begin()]: [return iterator{*this};]. *)
Definition begin (l : loc) (h : gmap loc alignment_range)
  : outcome (gmap loc alignment_range) alignment_range_iterator :=
  iterator_from l h.

(** Dereference, [operator *]: [return range_ptr->cache;]. [None] is the read through a
    null or dangling pointer. *)
Definition deref (it : alignment_range_iterator) (h : gmap loc alignment_range)
  : option (value_type E) :=
  match range_ptr it with
  | None => None
  | Some l => cache <$> h !! l
  end.

(** The four comparisons with [std::ranges::default_sentinel_t]. *)
Definition eq_sentinel (lhs : alignment_range_iterator) : bool := at_end lhs.
Definition sentinel_eq (rhs : alignment_range_iterator) : bool := eq_sentinel rhs.
Definition ne_sentinel (lhs : alignment_range_iterator) : bool :=
  negb (eq_sentinel lhs).
Definition sentinel_ne (rhs : alignment_range_iterator) : bool := ne_sentinel rhs.

End Range.

Arguments alignment_range E {_}.
Arguments alignment_range_iterator : clear implicits.

(** A range over the buffer executor: [buf] is still to be handed out and the
    cache holds [v]. *)
Definition buffer_range (buf : list nat) (v : nat) : alignment_range (list nat) :=
  {| alignment_executor := Some buf; cache := v |}.

(** ** Callers *)

Section Callers.
Context `{Executor E}.

(** [n] pre-increments in a row. *)
Fixpoint incr_n (n : nat) (it : alignment_range_iterator)
    (h : gmap loc (alignment_range E))
  : outcome (gmap loc (alignment_range E)) alignment_range_iterator :=
  match n with
  | O => Ok it h
  | S n' => bind (pre_incr it h) (incr_n n')
  end.

(** [n] calls of [next()] on the range at [l] by a caller that catches what
    is thrown and goes on: what each call threw or returned, in order. *)
Fixpoint next_n (n : nat) (l : loc) (h : gmap loc (alignment_range E))
  : option (list (exception + bool) * gmap loc (alignment_range E)) :=
  match n with
  | O => Some ([], h)
  | S n' =>
      match range_next l h with
      | Ok b h' => prod_map (cons (inr b)) id <$> next_n n' l h'
      | Throw e h' => prod_map (cons (inl e)) id <$> next_n n' l h'
      | Undefined => None
      end
  end.

(** What a caller can do with one iterator: the two increments and the four
    comparisons with the sentinel. *)
Inductive cursor_op :=
  | OpPreIncr | OpPostIncr | OpEq | OpSentinelEq | OpNe | OpSentinelNe.

(** What a comparison returns for an iterator that is at the end. *)
Definition answer_at_end (op : cursor_op) : bool :=
  match op with
  | OpNe | OpSentinelNe => false
  | _ => true
  end.

(** Runs [ops] on the iterator [it]; returns the comparisons' results in the
    order they were made, and the iterator. *)
Fixpoint run_ops (ops : list cursor_op) (it : alignment_range_iterator)
    (h : gmap loc (alignment_range E))
  : outcome (gmap loc (alignment_range E))
            (list (cursor_op * bool) * alignment_range_iterator) :=
  match ops with
  | [] => Ok ([], it) h
  | op :: ops' =>
      let observe (b : bool) :=
        bind (run_ops ops' it h)
             (λ a h', Ok ((op, b) :: fst a, snd a) h') in
      match op with
      | OpPreIncr => bind (pre_incr it h) (run_ops ops')
      | OpPostIncr => bind (post_incr it h) (run_ops ops')
      | OpEq => observe (eq_sentinel it)
      | OpSentinelEq => observe (sentinel_eq it)
      | OpNe => observe (ne_sentinel it)
      | OpSentinelNe => observe (sentinel_ne it)
      end
  end.

(** The states an iterator over the range at [l] and that range go through
    when the range was given the executor [e0]: the executor has been
    called some [k] times, and an iterator that is at the end has seen the
    empty optional, so call number [k] returns it again. *)
Definition cursor_inv (e0 : E) (l : loc) (it : alignment_range_iterator)
    (h : gmap loc (alignment_range E)) : Prop :=
  range_ptr it = Some l ∧
  ∃ r k, h !! l = Some r ∧
         alignment_executor r = Some (after_pulls k e0) ∧
         (at_end it = true → pull_result k e0 = None).

(** Every recorded comparison answered "at the end". *)
Definition all_at_end (tr : list (cursor_op * bool)) : Prop :=
  Forall (λ ob, snd ob = answer_at_end (fst ob)) tr.

(** *** Iterators as objects *)

(** Iterator objects have an address of their own; a copy is a second
    object with the same [range_ptr] and [at_end]. *)
Record memory := Memory {
  ranges : gmap loc (alignment_range E);
  cursors : gmap loc alignment_range_iterator;
}.

(** [alignment_range_iterator(alignment_range_iterator const &) = default]:
    the object at [dst] becomes a memberwise copy of the one at [src]. *)
Definition cursor_copy (dst src : loc) (m : memory) : option memory :=
  match cursors m !! src with
  | None => None
  | Some it => Some {| ranges := ranges m; cursors := <[dst := it]> (cursors m) |}
  end.

(** [++c] for the iterator object at [c]. *)
Definition cursor_incr (c : loc) (m : memory) : outcome memory () :=
  match cursors m !! c with
  | None => Undefined
  | Some it =>
      match pre_incr it (ranges m) with
      | Ok it' h' => Ok () {| ranges := h'; cursors := <[c := it']> (cursors m) |}
      | Throw e h' => Throw e {| ranges := h'; cursors := cursors m |}
      | Undefined => Undefined
      end
  end.

Fixpoint cursor_incr_n (n : nat) (c : loc) (m : memory) : outcome memory () :=
  match n with
  | O => Ok () m
  | S n' => bind (cursor_incr c m) (λ _, cursor_incr_n n' c)
  end.

(** [*c] and [c == std::ranges::default_sentinel] for the object at [c]. *)
Definition cursor_deref (c : loc) (m : memory) : option (value_type E) :=
  it ← cursors m !! c; deref it (ranges m).

Definition cursor_eq_sentinel (c : loc) (m : memory) : option bool :=
  eq_sentinel <$> cursors m !! c.

End Callers.

Arguments memory E {_}.

(** ** Further members and callers *)

(** An executor that plays back a script of answers, empty optionals
    included, so it may return a value again after an empty optional. *)
Definition script_bump {V : Type} (script : list (option V))
  : option V * list (option V) :=
  match script with
  | [] => (None, [])
  | o :: script' => (o, script')
  end.

#[export] Instance script_executor : Executor (list (option nat)) := {|
  value_type := nat;
  bump := script_bump;
  value_init := 0;
  moved_from := λ v, v;
|}.

Section Traversal.
Context `{Executor E}.

(** The address of the [cache] member of the range at [of_range]. *)
Record cache_address := CacheOf { of_range : loc }.

(** The member access operator of the iterator: [return &range_ptr->cache;].
    [None] when [range_ptr] is null. *)
Definition arrow (it : alignment_range_iterator) : option cache_address :=
  CacheOf <$> range_ptr it.

(** Reading through a pointer to a cache. *)
Definition load (p : cache_address) (h : gmap loc (alignment_range E))
  : option (value_type E) :=
  cache <$> h !! of_range p.

(** The loop [for (; it != end(); ++it) out.push_back( *it );] with at most
    [fuel] tests of the condition: [None] when the fuel runs out, else the
    elements pushed back and the iterator at the exit. *)
Fixpoint for_each (fuel : nat) (it : alignment_range_iterator)
    (h : gmap loc (alignment_range E))
  : option (outcome (gmap loc (alignment_range E))
                    (list (value_type E) * alignment_range_iterator)) :=
  match fuel with
  | O => None
  | S fuel' =>
      if ne_sentinel it then
        match deref it h with
        | None => Some Undefined
        | Some v =>
            match pre_incr it h with
            | Ok it' h' =>
                (λ o, bind o (λ a h'', Ok (v :: fst a, snd a) h''))
                  <$> for_each fuel' it' h'
            | Throw e h' => Some (Throw e h')
            | Undefined => Some Undefined
            end
        end
      else Some (Ok ([], it) h)
  end.

(** The range-based for loop over the range at [l]:
    [for (auto && x : range) out.push_back(x);]. *)
Definition range_for (fuel : nat) (l : loc) (h : gmap loc (alignment_range E))
  : option (outcome (gmap loc (alignment_range E))
                    (list (value_type E) * alignment_range_iterator)) :=
  match begin l h with
  | Ok it h' => for_each fuel it h'
  | Throw e h' => Some (Throw e h')
  | Undefined => Some Undefined
  end.

(** The increments among [ops]. *)
Definition is_incr (op : cursor_op) : bool :=
  match op with
  | OpPreIncr | OpPostIncr => true
  | _ => false
  end.

Fixpoint count_incr (ops : list cursor_op) : nat :=
  match ops with
  | [] => 0
  | op :: ops' => (if is_incr op then 1 else 0) + count_incr ops'
  end.

End Traversal.

(** * Properties *)

(** ** Basic facts about the executor and [next] *)

Section Facts.
Context `{Executor E}.
Implicit Types (r : alignment_range E) (h : gmap loc (alignment_range E)).
Implicit Types (it : alignment_range_iterator) (e : E) (l : loc).

Lemma after_pulls_succ n e :
  after_pulls (S n) e = snd (bump (after_pulls n e)).
Proof.
  revert e. induction n as [|n IH]; intros e; [done|].
  change (after_pulls (S (S n)) e) with (after_pulls (S n) (snd (bump e))).
  by rewrite IH.
Qed.

(** [next] on a range that owns an executor, in one equation. *)
Lemma next_owning r e :
  alignment_executor r = Some e →
  next r = inr (bool_decide (is_Some (fst (bump e))),
                {| alignment_executor := Some (snd (bump e));
                   cache := default (cache r) (fst (bump e)) |}).
Proof.
  intros He. unfold next. rewrite He.
  by destruct (bump e) as [[v|] e'].
Qed.

Lemma next_empty r :
  alignment_executor r = None → next r = inl no_buffer.
Proof. intros He. unfold next. by rewrite He. Qed.

Lemma range_next_owning l h r e :
  h !! l = Some r → alignment_executor r = Some e →
  range_next l h =
    Ok (bool_decide (is_Some (fst (bump e))))
       (<[l := {| alignment_executor := Some (snd (bump e));
                  cache := default (cache r) (fst (bump e)) |}]> h).
Proof.
  intros Hl He. unfold range_next. rewrite Hl. by rewrite (next_owning r e).
Qed.

Lemma range_next_empty l h r :
  h !! l = Some r → alignment_executor r = None →
  range_next l h = Throw no_buffer h.
Proof.
  intros Hl He. unfold range_next. rewrite Hl. by rewrite next_empty.
Qed.

Lemma pre_incr_owning it l h r e :
  range_ptr it = Some l → h !! l = Some r → alignment_executor r = Some e →
  pre_incr it h =
    Ok {| range_ptr := Some l;
          at_end := negb (bool_decide (is_Some (fst (bump e)))) |}
       (<[l := {| alignment_executor := Some (snd (bump e));
                  cache := default (cache r) (fst (bump e)) |}]> h).
Proof.
  intros Hp Hl He. unfold pre_incr. rewrite Hp.
  by rewrite (range_next_owning l h r e).
Qed.

Lemma next_n_empty n l h r :
  h !! l = Some r → alignment_executor r = None →
  next_n n l h = Some (replicate n (inl no_buffer), h).
Proof.
  intros Hl He. induction n as [|n IH]; [done|].
  simpl. rewrite (range_next_empty l h r) by done. by rewrite IH.
Qed.

End Facts.

(** ** Comparison with the sentinel *)

(** C7: [c == s] is true exactly when [at_end] is set, [s == c] returns what
    [c == s] returns, and [c != s], [s != c] return the negation of the
    corresponding equality. *)
Theorem sentinel_comparisons :
  ∀ (it : alignment_range_iterator),
    (eq_sentinel it = true ↔ at_end it = true) ∧
    sentinel_eq it = eq_sentinel it ∧
    ne_sentinel it = negb (eq_sentinel it) ∧
    sentinel_ne it = negb (sentinel_eq it).
Proof. intros [p b]. by repeat split. Qed.

(** C9: a default-constructed iterator, which points to no range, compares
    equal to the sentinel from both sides; no range is read for that. *)
Theorem default_iterator_is_at_end :
  range_ptr default_iterator = None ∧
  at_end default_iterator = true ∧
  eq_sentinel default_iterator = true ∧
  sentinel_eq default_iterator = true ∧
  ne_sentinel default_iterator = false ∧
  sentinel_ne default_iterator = false.
Proof. by repeat split. Qed.

(** ** Ranges without an executor *)

(** C3: on a range whose executor pointer is null, [next()] throws the
    [runtime_error] and does not return [false]; the range and the rest of the
    store are as before, so each of any number of calls in a row throws. The
    default-constructed range is such a range. *)
Theorem next_without_executor_throws :
  ∀ `{Executor E} (r : alignment_range E),
    alignment_executor r = None →
    next r = inl no_buffer ∧
    (∀ b r', next r ≠ inr (b, r')) ∧
    (∀ l (h : gmap loc (alignment_range E)), h !! l = Some r →
       range_next l h = Throw no_buffer h ∧
       ∀ n, next_n n l h = Some (replicate n (inl no_buffer), h)) ∧
    alignment_executor (default_range (E := E)) = None.
Proof.
  intros E ? r He. split_and!; [by apply next_empty| | |done].
  - intros b r'. by rewrite next_empty.
  - intros l h Hl. split; [by eapply range_next_empty|].
    intros n. by eapply next_n_empty.
Qed.

Lemma next_without_executor_throws_witness :
  alignment_executor (default_range (E := list nat)) = None ∧
  next (default_range (E := list nat)) = inl no_buffer.
Proof.
  split; [reflexivity|].
  apply (next_without_executor_throws (default_range (E := list nat))).
  reflexivity.
Defined.

(** C8: [begin()] on a range whose executor pointer is null throws the
    [runtime_error] out of the iterator's constructor: no iterator is returned
    and the store is as before. This is so for a default-constructed range and
    for the source of a move. *)
Theorem begin_without_executor_throws :
  ∀ `{Executor E} (h : gmap loc (alignment_range E)) l r,
    h !! l = Some r →
    (alignment_executor r = None → begin l h = Throw no_buffer h) ∧
    (r = default_range → begin l h = Throw no_buffer h) ∧
    (∀ dst h', dst ≠ l → range_move dst l h = Some h' →
       begin l h' = Throw no_buffer h').
Proof.
  intros E ? h l r Hl.
  assert (∀ (h0 : gmap loc (alignment_range E)) r0,
            h0 !! l = Some r0 → alignment_executor r0 = None →
            begin l h0 = Throw no_buffer h0) as Hthrow.
  { intros h0 r0 Hl0 He0. unfold begin, iterator_from, pre_incr. simpl.
    by rewrite (range_next_empty l h0 r0). }
  split_and!.
  - by apply Hthrow.
  - intros ->. by apply (Hthrow h default_range).
  - intros dst h' Hne. unfold range_move. rewrite Hl.
    rewrite decide_False by done. intros [= <-].
    apply (Hthrow _ (snd (move_range r))); [|done].
    rewrite lookup_insert_ne by done. by rewrite lookup_insert_eq.
Qed.

Lemma begin_without_executor_throws_witness :
  begin 1%positive {[ 1%positive := default_range (E := list nat) ]}
    = Throw no_buffer {[ 1%positive := default_range (E := list nat) ]} ∧
  ∃ h', range_move 2%positive 1%positive {[ 1%positive := make_range [5; 7; 2] ]}
          = Some h' ∧
        begin 1%positive h' = Throw no_buffer h'.
Proof.
  split.
  - assert (({[ 1%positive := default_range (E := list nat) ]} : gmap loc _)
              !! 1%positive = Some default_range) as Hl by reflexivity.
    destruct (begin_without_executor_throws _ _ _ Hl) as (Hnull & _ & _).
    apply Hnull. reflexivity.
  - assert (({[ 1%positive := make_range [5; 7; 2] ]} : gmap loc _)
              !! 1%positive = Some (make_range [5; 7; 2])) as Hl by reflexivity.
    destruct (begin_without_executor_throws _ _ _ Hl) as (_ & _ & Hmoved).
    eexists. split; [reflexivity|].
    apply (Hmoved 2%positive); [discriminate|reflexivity].
Defined.

(** ** One pull per [next()] *)

(** C6: on a range that owns an executor [next()] calls [bump] once: the
    executor afterwards is the one after that single call, and for the
    counting executor the count has gone up by one. A value returned by [bump]
    becomes the cache and [next()] returns [true]; on the empty optional
    [next()] returns [false] and the cache is what it was. *)
Theorem next_pulls_once :
  ∀ `{Executor E} (r : alignment_range E) (e : E),
    alignment_executor r = Some e →
    (∀ v, fst (bump e) = Some v →
       next r = inr (true, {| alignment_executor := Some (snd (bump e));
                              cache := v |})) ∧
    (fst (bump e) = None →
       next r = inr (false, {| alignment_executor := Some (snd (bump e));
                               cache := cache r |})) ∧
    (∀ (rc : alignment_range (counted E)) n,
       alignment_executor rc = Some (Counted e n) →
       ∃ b rc', next rc = inr (b, rc') ∧
                alignment_executor rc' = Some (Counted (snd (bump e)) (S n))).
Proof.
  intros E ? r e He. split_and!.
  - intros v Hv. rewrite (next_owning r e He), Hv. done.
  - intros Hv. rewrite (next_owning r e He), Hv. done.
  - intros rc n Hc. rewrite (next_owning rc _ Hc). eauto.
Qed.

Lemma next_pulls_once_witness :
  next (make_range [5; 7; 2]) =
    inr (true, (buffer_range [7; 2] 5)) ∧
  next (buffer_range [] 2) =
    inr (false, (buffer_range [] 2)).
Proof.
  split.
  - exact (proj1 (next_pulls_once (make_range [5; 7; 2]) [5; 7; 2] eq_refl)
             5 eq_refl).
  - exact (proj1 (proj2 (next_pulls_once
                           (buffer_range [] 2)
                           ([] : list nat) eq_refl)) eq_refl).
Defined.

(** ** Priming *)

Section Priming.
Context `{Executor E}.
Implicit Types (r : alignment_range E) (h : gmap loc (alignment_range E)).

Lemma begin_owning l h r e :
  h !! l = Some r → alignment_executor r = Some e →
  begin l h =
    Ok {| range_ptr := Some l;
          at_end := negb (bool_decide (is_Some (fst (bump e)))) |}
       (<[l := {| alignment_executor := Some (snd (bump e));
                  cache := default (cache r) (fst (bump e)) |}]> h).
Proof.
  intros Hl He. unfold begin, iterator_from.
  by rewrite (pre_incr_owning _ l h r e).
Qed.

Lemma deref_insert it l h r :
  range_ptr it = Some l → deref it (<[l := r]> h) = Some (cache r).
Proof. intros Hp. unfold deref. by rewrite Hp, lookup_insert_eq. Qed.

(** [N + 1] increments, each of which gets a value from the executor. *)
Lemma incr_n_yields l N :
  ∀ it h r e v,
    range_ptr it = Some l → h !! l = Some r → alignment_executor r = Some e →
    (∀ k, k < N → is_Some (pull_result k e)) →
    pull_result N e = Some v →
    incr_n (S N) it h =
      Ok {| range_ptr := Some l; at_end := false |}
         (<[l := {| alignment_executor := Some (after_pulls (S N) e);
                    cache := v |}]> h).
Proof.
  induction N as [|N IH]; intros it h r e v Hp Hl He Hall Hv.
  - simpl. rewrite (pre_incr_owning it l h r e) by done.
    unfold pull_result in Hv. simpl in Hv. by rewrite Hv.
  - change (incr_n (S (S N)) it h)
      with (bind (pre_incr it h) (incr_n (S N))).
    rewrite (pre_incr_owning it l h r e) by done. cbn [bind].
    erewrite (IH _ _ _ (snd (bump e)) v); [|done|apply lookup_insert_eq|done| |].
    + by rewrite insert_insert_eq.
    + intros k Hk. apply (Hall (S k)). lia.
    + exact Hv.
Qed.

End Priming.

(** C1: [begin()] on a range whose executor has a first result calls [bump]
    once inside the iterator's constructor: the iterator returned is not at
    the end and dereferences to that first result, the executor is the one
    after one call, and the counting executor has counted one call. The caller
    has made no increment. *)
Theorem begin_primes_first_result :
  ∀ `{Executor E} (h : gmap loc (alignment_range E)) l r e v,
    h !! l = Some r → alignment_executor r = Some e →
    pull_result 0 e = Some v →
    (∃ it h', begin l h = Ok it h' ∧
              deref it h' = Some v ∧
              eq_sentinel it = false ∧
              alignment_executor <$> h' !! l = Some (Some (after_pulls 1 e))) ∧
    (∀ (hc : gmap loc (alignment_range (counted E))) rc n,
       hc !! l = Some rc → alignment_executor rc = Some (Counted e n) →
       ∃ it hc', begin l hc = Ok it hc' ∧
                 deref it hc' = Some v ∧
                 alignment_executor <$> hc' !! l
                   = Some (Some (Counted (snd (bump e)) (S n)))).
Proof.
  intros E ? h l r e v Hl He Hv. unfold pull_result in Hv. simpl in Hv. split.
  - eexists _, _. split; [by apply (begin_owning l h r e)|].
    rewrite Hv. split_and!; [by apply deref_insert|done|].
    by rewrite lookup_insert_eq.
  - intros hc rc n Hlc Hc. eexists _, _.
    split; [by apply (begin_owning l hc rc (Counted e n))|].
    split; [|by rewrite lookup_insert_eq].
    rewrite deref_insert by done. simpl. by rewrite Hv.
Qed.

Lemma begin_primes_first_result_witness :
  ∃ it h', begin 1%positive {[ 1%positive := make_range [5; 7; 2] ]} = Ok it h' ∧
           deref it h' = Some 5 ∧ eq_sentinel it = false ∧
           alignment_executor <$> h' !! 1%positive = Some (Some [7; 2]).
Proof.
  assert (({[ 1%positive := make_range [5; 7; 2] ]} : gmap loc _) !! 1%positive
          = Some (make_range [5; 7; 2])) as Hl by reflexivity.
  exact (proj1 (begin_primes_first_result _ _ _ [5; 7; 2] 5 Hl eq_refl eq_refl)).
Defined.

(** ** Order of the results *)

(** C2: if the executor's first [N + 1] calls of [bump] return values, then
    after [begin()] and [N] increments, [N + 1] pulls in all, the iterator is
    not at the end and dereferences to the value of pull number [N + 1]; the
    executor has been called [N + 1] times. For every [N], so the values are
    seen in the executor's order, each once. *)
Theorem nth_pull_is_dereferenced :
  ∀ `{Executor E} (h : gmap loc (alignment_range E)) l r e N v,
    h !! l = Some r → alignment_executor r = Some e →
    (∀ k, k < N → is_Some (pull_result k e)) →
    pull_result N e = Some v →
    ∃ it h', bind (begin l h) (incr_n N) = Ok it h' ∧
             deref it h' = Some v ∧
             eq_sentinel it = false ∧
             alignment_executor <$> h' !! l = Some (Some (after_pulls (S N) e)).
Proof.
  intros E ? h l r e N v Hl He Hall Hv. eexists _, _.
  split; [apply (incr_n_yields l N _ h r e v); done|].
  split_and!; [by apply deref_insert|done|by rewrite lookup_insert_eq].
Qed.

Lemma nth_pull_is_dereferenced_witness :
  ∃ it h', bind (begin 1%positive {[ 1%positive := make_range [5; 7; 2] ]})
                (incr_n 2) = Ok it h' ∧
           deref it h' = Some 2 ∧ eq_sentinel it = false ∧
           alignment_executor <$> h' !! 1%positive = Some (Some []).
Proof.
  assert (({[ 1%positive := make_range [5; 7; 2] ]} : gmap loc _) !! 1%positive
          = Some (make_range [5; 7; 2])) as Hl by reflexivity.
  refine (nth_pull_is_dereferenced _ _ _ [5; 7; 2] 2 2 Hl eq_refl _ eq_refl).
  intros [|[|k]] Hk; [by eexists..|lia].
Defined.

(** ** Moving a range *)

(** C5: after the range at [a] has been moved into the range at [b], the
    range at [a] has a null executor pointer and every [next()] on it throws
    the [runtime_error]; the range at [b] has the executor and the cache that
    [a] had, so [next()] on it does what [next()] on [a] would have done: it
    gets the executor's next result. *)
Theorem move_transfers_executor :
  ∀ `{Executor E} (h : gmap loc (alignment_range E)) a b rA,
    a ≠ b → h !! a = Some rA →
    ∃ h' rA',
      range_move b a h = Some h' ∧
      h' !! a = Some rA' ∧ alignment_executor rA' = None ∧
      range_next a h' = Throw no_buffer h' ∧
      (∀ n, next_n n a h' = Some (replicate n (inl no_buffer), h')) ∧
      h' !! b = Some rA ∧
      (∀ e, alignment_executor rA = Some e →
         range_next b h' =
           Ok (bool_decide (is_Some (pull_result 0 e)))
              (<[b := {| alignment_executor := Some (after_pulls 1 e);
                         cache := default (cache rA) (pull_result 0 e) |}]> h')).
Proof.
  intros E ? h a b rA Hne Ha.
  assert (fst (move_range rA) = rA) as Hfst by by destruct rA.
  eexists _, (snd (move_range rA)).
  split; [unfold range_move; rewrite Ha, decide_False by done; reflexivity|].
  assert ((<[b := fst (move_range rA)]> (<[a := snd (move_range rA)]> h)) !! a
          = Some (snd (move_range rA))) as Ha'.
  { rewrite lookup_insert_ne by done. apply lookup_insert_eq. }
  split_and!; [done|done| | | |].
  - by eapply range_next_empty.
  - intros n. by eapply next_n_empty.
  - by rewrite lookup_insert_eq, Hfst.
  - intros e He. eapply range_next_owning; [|done].
    by rewrite lookup_insert_eq, Hfst.
Qed.

Lemma move_transfers_executor_witness :
  ∃ h' rA',
    range_move 2%positive 1%positive
      (<[ 2%positive := default_range (E := list nat) ]>
         {[ 1%positive := (buffer_range [7; 2] 5) ]}
       : gmap loc (alignment_range (list nat))) = Some h' ∧
    h' !! 1%positive = Some rA' ∧ alignment_executor rA' = None ∧
    range_next 1%positive h' = Throw no_buffer h' ∧
    h' !! 2%positive = Some (buffer_range [7; 2] 5).
Proof.
  assert ((<[ 2%positive := default_range (E := list nat) ]>
             {[ 1%positive := (buffer_range [7; 2] 5) ]}
           : gmap loc (alignment_range (list nat))) !! 1%positive
          = Some (buffer_range [7; 2] 5)) as Hl
    by reflexivity.
  assert (1%positive ≠ 2%positive) as Hne by discriminate.
  destruct (move_transfers_executor _ _ _ _ Hne Hl)
    as (h' & rA' & Hm & Ha & Hnone & Hthrow & _ & Hb & _).
  exists h', rA'. repeat split; assumption.
Defined.

(** ** Exhaustion is permanent *)

Section Permanence.
Context `{Executor E}.
Implicit Types (r : alignment_range E) (h : gmap loc (alignment_range E)).
Implicit Types (it : alignment_range_iterator) (e : E) (l : loc).

Lemma negb_is_Some_true {A} (o : option A) :
  negb (bool_decide (is_Some o)) = true → o = None.
Proof. by destruct o. Qed.

Lemma pre_incr_inv e0 l it h :
  exhaustion_is_permanent e0 → cursor_inv e0 l it h →
  ∃ it' h', pre_incr it h = Ok it' h' ∧ cursor_inv e0 l it' h' ∧
            (at_end it = true → at_end it' = true).
Proof.
  intros Hperm (Hp & r & k & Hl & He & Hend).
  eexists _, _. split; [by apply (pre_incr_owning it l h r (after_pulls k e0))|].
  fold (pull_result k e0). split.
  - split; [done|]. eexists _, (S k).
    split; [apply lookup_insert_eq|]. cbn [alignment_executor at_end].
    split; [by rewrite after_pulls_succ|].
    intros Hn. apply Hperm. by apply negb_is_Some_true.
  - intros Hn. cbn [at_end]. by rewrite (Hend Hn).
Qed.

Lemma begin_inv e0 l h r :
  exhaustion_is_permanent e0 →
  h !! l = Some r → alignment_executor r = Some e0 →
  ∃ it h', begin l h = Ok it h' ∧ cursor_inv e0 l it h'.
Proof.
  intros Hperm Hl He.
  eexists _, _. split; [by apply (begin_owning l h r e0)|].
  split; [done|]. eexists _, 1.
  split; [apply lookup_insert_eq|]. split; [done|].
  cbn [at_end]. intros Hn. apply Hperm. by apply negb_is_Some_true.
Qed.

Lemma run_ops_inv e0 l ops :
  exhaustion_is_permanent e0 →
  ∀ it h, cursor_inv e0 l it h →
    ∃ tr it' h', run_ops ops it h = Ok (tr, it') h' ∧
                 cursor_inv e0 l it' h' ∧
                 (at_end it = true → at_end it' = true ∧ all_at_end tr).
Proof.
  intros Hperm. induction ops as [|op ops IH]; intros it h Hinv.
  { eexists [], it, h. split_and!; [done|done|]. intros ?. split; [done|].
    by apply Forall_nil. }
  assert (∀ b, (at_end it = true → b = answer_at_end op) →
            ∃ tr it' h',
              bind (run_ops ops it h)
                   (λ a h', Ok ((op, b) :: fst a, snd a) h') = Ok (tr, it') h' ∧
              cursor_inv e0 l it' h' ∧
              (at_end it = true → at_end it' = true ∧ all_at_end tr)) as Hobs.
  { intros b Hb. destruct (IH it h Hinv) as (tr & it' & h' & Hrun & Hinv' & Hend).
    eexists _, _, _. rewrite Hrun. cbn [bind fst snd].
    split_and!; [done|done|]. intros Hn. destruct (Hend Hn) as [? Htr].
    split; [done|]. apply Forall_cons. split; [by apply Hb|done]. }
  assert (∃ tr it' h',
            bind (pre_incr it h) (run_ops ops) = Ok (tr, it') h' ∧
            cursor_inv e0 l it' h' ∧
            (at_end it = true → at_end it' = true ∧ all_at_end tr)) as Hincr.
  { destruct (pre_incr_inv e0 l it h Hperm Hinv) as (it1 & h1 & Hi & Hinv1 & Hend1).
    destruct (IH it1 h1 Hinv1) as (tr & it' & h' & Hrun & Hinv' & Hend).
    eexists _, _, _. rewrite Hi. cbn [bind].
    split_and!; [done|done|]. intros Hn. apply Hend, Hend1, Hn. }
  destruct op; cbn [run_ops]; [exact Hincr|exact Hincr|apply Hobs..];
    unfold sentinel_ne, sentinel_eq, ne_sentinel, eq_sentinel;
    intros ->; done.
Qed.

End Permanence.

(** The buffer executor keeps the contract of [bump]. *)
Lemma list_pull_result (buf : list nat) n : pull_result n buf = buf !! n.
Proof.
  revert buf. induction n as [|n IH]; intros [|v buf]; try done.
  - change (pull_result (S n) []) with (pull_result n ([] : list nat)).
    rewrite IH. by destruct n.
  - change (pull_result (S n) (v :: buf)) with (pull_result n buf).
    by rewrite IH.
Qed.

Lemma list_exhaustion_is_permanent (buf : list nat) :
  exhaustion_is_permanent buf.
Proof.
  intros n. rewrite !list_pull_result, !lookup_ge_None. lia.
Qed.

(** C4: take a range whose executor keeps returning the empty optional once
    it has returned it, an iterator obtained from it with [begin()], and any
    increments and comparisons on that iterator. If the iterator then compares
    equal to the sentinel, every further sequence of increments and
    comparisons runs through, every comparison in it answers "at the end",
    and the iterator compares equal to the sentinel after it. *)
Theorem at_end_is_permanent :
  ∀ `{Executor E} (h : gmap loc (alignment_range E)) l r e ops1 tr1 it1 h1,
    h !! l = Some r → alignment_executor r = Some e →
    exhaustion_is_permanent e →
    bind (begin l h) (λ it h0, run_ops ops1 it h0) = Ok (tr1, it1) h1 →
    eq_sentinel it1 = true →
    ∀ ops2, ∃ tr2 it2 h2,
      run_ops ops2 it1 h1 = Ok (tr2, it2) h2 ∧
      all_at_end tr2 ∧
      eq_sentinel it2 = true ∧ sentinel_eq it2 = true ∧
      ne_sentinel it2 = false ∧ sentinel_ne it2 = false.
Proof.
  intros E ? h l r e ops1 tr1 it1 h1 Hl He Hperm Hrun1 Hend1 ops2.
  destruct (begin_inv e l h r Hperm Hl He) as (it0 & h0 & Hb & Hinv0).
  rewrite Hb in Hrun1. cbn [bind] in Hrun1.
  destruct (run_ops_inv e l ops1 Hperm it0 h0 Hinv0)
    as (tr1' & it1' & h1' & Hrun1' & Hinv1 & _).
  rewrite Hrun1' in Hrun1. injection Hrun1 as -> -> ->.
  destruct (run_ops_inv e l ops2 Hperm it1 h1 Hinv1)
    as (tr2 & it2 & h2 & Hrun2 & _ & Hend2).
  destruct (Hend2 Hend1) as [Hend Htr].
  exists tr2, it2, h2. unfold sentinel_ne, sentinel_eq, ne_sentinel, eq_sentinel.
  rewrite Hend. by split_and!.
Qed.

Lemma at_end_is_permanent_witness :
  ∃ tr it h',
    run_ops [OpEq; OpPreIncr; OpSentinelNe; OpPostIncr; OpNe; OpSentinelEq]
      {| range_ptr := Some 1%positive; at_end := true |}
      {[ 1%positive := (buffer_range [] 9) ]}
      = Ok (tr, it) h' ∧
    all_at_end tr ∧ eq_sentinel it = true.
Proof.
  assert (({[ 1%positive := make_range [9] ]} : gmap loc _) !! 1%positive
          = Some (make_range [9])) as Hl by reflexivity.
  destruct (at_end_is_permanent
              {[ 1%positive := make_range [9] ]} 1%positive (make_range [9]) [9]
              [OpNe; OpPreIncr] _ _ _
              Hl eq_refl (list_exhaustion_is_permanent [9]) eq_refl eq_refl
              [OpEq; OpPreIncr; OpSentinelNe; OpPostIncr; OpNe; OpSentinelEq])
    as (tr & it & h' & Hrun & Htr & Hend & _).
  exists tr, it, h'. by split_and!.
Defined.

(** ** Copies of an iterator *)

Section Copies.
Context `{Executor E}.
Implicit Types (m : memory E) (c : loc).

Lemma pre_incr_range_ptr (it it' : alignment_range_iterator)
    (h h' : gmap loc (alignment_range E)) :
  pre_incr it h = Ok it' h' → range_ptr it' = range_ptr it.
Proof.
  unfold pre_incr. destruct (range_ptr it) as [l|]; [|done].
  destruct (range_next l h); [|done..]. by intros [= <- _].
Qed.

(** An increment of the iterator at [c2] leaves the iterator at [c1] as it
    is and the one at [c2] pointing where it pointed. *)
Lemma cursor_incr_frame c1 c2 m m' it2 :
  c1 ≠ c2 → cursors m !! c2 = Some it2 → cursor_incr c2 m = Ok () m' →
  cursors m' !! c1 = cursors m !! c1 ∧
  ∃ it2', cursors m' !! c2 = Some it2' ∧ range_ptr it2' = range_ptr it2.
Proof.
  intros Hne Hc2. unfold cursor_incr. rewrite Hc2.
  destruct (pre_incr it2 (ranges m)) as [it2' h'| |] eqn:Hi; [|done..].
  intros [= <-]. cbn [cursors]. split; [by rewrite lookup_insert_ne|].
  exists it2'. split; [apply lookup_insert_eq|by eapply pre_incr_range_ptr].
Qed.

Lemma cursor_incr_n_frame c1 c2 n :
  c1 ≠ c2 → ∀ m m' it2,
    cursors m !! c2 = Some it2 → cursor_incr_n n c2 m = Ok () m' →
    cursors m' !! c1 = cursors m !! c1 ∧
    ∃ it2', cursors m' !! c2 = Some it2' ∧ range_ptr it2' = range_ptr it2.
Proof.
  intros Hne. induction n as [|n IH]; intros m m' it2 Hc2.
  - intros [= <-]. eauto.
  - cbn [cursor_incr_n].
    destruct (cursor_incr c2 m) as [[] m1| |] eqn:Hi; [|done..]. cbn [bind].
    intros Hn.
    destruct (cursor_incr_frame c1 c2 m m1 it2 Hne Hc2 Hi)
      as (Hc1 & it2' & Hc2' & Hp).
    destruct (IH m1 m' it2' Hc2' Hn) as (Hc1' & it2'' & Hc2'' & Hp').
    split; [congruence|]. exists it2''. split; [done|congruence].
Qed.

End Copies.

(** C10: [at_end] belongs to the iterator object. Copy an iterator that is
    not at the end and increment the copy until it compares equal to the
    sentinel: the original object is unchanged, it still compares unequal to
    the sentinel, and both dereference to the same cache of the one range. *)
Theorem at_end_is_per_iterator :
  ∀ `{Executor E} (m m1 m2 : memory E) c1 c2 it n,
    c1 ≠ c2 → cursors m !! c1 = Some it → at_end it = false →
    cursor_copy c2 c1 m = Some m1 →
    cursor_incr_n n c2 m1 = Ok () m2 →
    cursor_eq_sentinel c2 m2 = Some true →
    cursors m2 !! c1 = Some it ∧
    cursor_eq_sentinel c1 m2 = Some false ∧
    cursor_deref c1 m2 = cursor_deref c2 m2.
Proof.
  intros E ? m m1 m2 c1 c2 it n Hne Hc1 Hend Hcopy Hn Heq.
  unfold cursor_copy in Hcopy. rewrite Hc1 in Hcopy. injection Hcopy as <-.
  destruct (cursor_incr_n_frame c1 c2 n Hne _ m2 it
              (lookup_insert_eq _ _ _) Hn) as (Hc1' & it2 & Hc2 & Hp).
  cbn [cursors] in Hc1'. rewrite lookup_insert_ne in Hc1' by done.
  rewrite Hc1 in Hc1'. split_and!.
  - done.
  - unfold cursor_eq_sentinel, eq_sentinel. rewrite Hc1'. simpl. by f_equal.
  - unfold cursor_deref. rewrite Hc1', Hc2. cbn. unfold deref. by rewrite Hp.
Qed.

Lemma at_end_is_per_iterator_witness :
  ∃ m2 : memory (list nat),
    cursor_incr_n 2 11%positive
      {| ranges := {[ 1%positive := buffer_range [7] 5 ]};
         cursors := <[ 11%positive := {| range_ptr := Some 1%positive; at_end := false |} ]>
                      {[ 10%positive := {| range_ptr := Some 1%positive; at_end := false |} ]} |}
      = Ok () m2 ∧
    cursor_eq_sentinel 11%positive m2 = Some true ∧
    cursor_eq_sentinel 10%positive m2 = Some false ∧
    cursor_deref 10%positive m2 = Some 7 ∧
    cursor_deref 11%positive m2 = Some 7.
Proof.
  eexists. split; [reflexivity|]. split; [reflexivity|].
  assert (10%positive ≠ 11%positive) as Hne by discriminate.
  epose proof (at_end_is_per_iterator
                 {| ranges := {[ 1%positive := buffer_range [7] 5 ]};
                    cursors := {[ 10%positive := {| range_ptr := Some 1%positive;
                                                    at_end := false |} ]} |}
                 _ _ 10%positive 11%positive
                 {| range_ptr := Some 1%positive; at_end := false |} 2 Hne) as Hw.
  destruct Hw as (_ & Hflag & Hderef); [reflexivity..|].
  split; [exact Hflag|]. split; reflexivity.
Defined.

(** * Further properties *)

(** ** Traversal with the range-based for loop *)

Section Loop.
Context `{Executor E}.
Implicit Types (r : alignment_range E) (h : gmap loc (alignment_range E)).
Implicit Types (it : alignment_range_iterator) (e : E) (l : loc).

Lemma default_last_cons {A} (d x : A) (xs : list A) :
  default d (last (x :: xs)) = default x (last xs).
Proof. rewrite last_cons. by destruct (last xs). Qed.

Lemma for_each_at_end fuel it h :
  at_end it = true → for_each (S fuel) it h = Some (Ok ([], it) h).
Proof.
  intros Hend. cbn [for_each]. unfold ne_sentinel, eq_sentinel. by rewrite Hend.
Qed.

(** The loop entered with the first element [v] in the cache and the
    executor about to return [ws] and then the empty optional. *)
Lemma for_each_collects l ws :
  ∀ fuel it h e v,
    range_ptr it = Some l → at_end it = false →
    h !! l = Some {| alignment_executor := Some e; cache := v |} →
    (∀ k, k ≤ length ws → pull_result k e = ws !! k) →
    length ws + 1 < fuel →
    for_each fuel it h =
      Some (Ok (v :: ws, {| range_ptr := Some l; at_end := true |})
               (<[l := {| alignment_executor := Some (after_pulls (S (length ws)) e);
                          cache := default v (last ws) |}]> h)).
Proof.
  induction ws as [|w ws IH]; intros fuel it h e v Hp Hend Hl Hall Hfuel;
    (destruct fuel as [|fuel]; [simpl in Hfuel; lia|]);
    cbn [for_each]; unfold ne_sentinel, eq_sentinel; rewrite Hend; cbn [negb];
    (assert (deref it h = Some v) as -> by (unfold deref; by rewrite Hp, Hl));
    rewrite (pre_incr_owning it l h _ e Hp Hl eq_refl);
    pose proof (Hall 0 ltac:(lia)) as H0; unfold pull_result in H0;
    cbn [after_pulls] in H0; rewrite H0; cbn [lookup list_lookup].
  - destruct fuel as [|fuel]; [simpl in Hfuel; lia|].
    by rewrite for_each_at_end.
  - cbn [bool_decide default negb cache].
    rewrite bool_decide_eq_true_2 by eauto. cbn [negb].
    rewrite (IH fuel _ _ (snd (bump e)) w);
      [|done|done|apply lookup_insert_eq| |simpl in Hfuel; lia].
    + cbn [fmap option_fmap option_map bind fst snd].
      by rewrite insert_insert_eq, default_last_cons.
    + intros k Hk. apply (Hall (S k)). simpl. lia.
Qed.

End Loop.

(** The range-based for loop over a range whose executor returns [vs] and
    then the empty optional. *)
Lemma range_for_yields `{Executor E} (h : gmap loc (alignment_range E)) l r e vs fuel :
  h !! l = Some r → alignment_executor r = Some e →
  (∀ k, k ≤ length vs → pull_result k e = vs !! k) →
  length vs < fuel →
  range_for fuel l h =
    Some (Ok (vs, {| range_ptr := Some l; at_end := true |})
             (<[l := {| alignment_executor := Some (after_pulls (S (length vs)) e);
                        cache := default (cache r) (last vs) |}]> h)).
Proof.
  intros Hl He Hall Hfuel. unfold range_for.
  rewrite (begin_owning l h r e Hl He).
  pose proof (Hall 0 ltac:(lia)) as H0. unfold pull_result in H0.
  cbn [after_pulls] in H0. rewrite H0.
  destruct vs as [|v ws]; cbn [lookup list_lookup].
  - destruct fuel as [|fuel]; [simpl in Hfuel; lia|].
    by rewrite for_each_at_end.
  - rewrite bool_decide_eq_true_2 by eauto. cbn [negb default].
    rewrite (for_each_collects l ws fuel _ _ (snd (bump e)) v);
      [|done|done|apply lookup_insert_eq| |simpl in Hfuel; lia].
    + by rewrite insert_insert_eq, default_last_cons.
    + intros k Hk. apply (Hall (S k)). simpl. lia.
Qed.

(** X1: the range-based for loop over a range whose executor returns the
    values [vs] and then the empty optional pushes back exactly [vs], in that
    order. It ends with the iterator at the end, the executor called
    [length vs + 1] times and the last value (or, if there was none, the old
    cache) still in the cache. [length vs + 1] tests of the loop condition
    are enough. *)
Theorem range_for_collects :
  ∀ `{Executor E} (h : gmap loc (alignment_range E)) l r e vs fuel,
    h !! l = Some r → alignment_executor r = Some e →
    (∀ k, k ≤ length vs → pull_result k e = vs !! k) →
    length vs < fuel →
    range_for fuel l h =
      Some (Ok (vs, {| range_ptr := Some l; at_end := true |})
               (<[l := {| alignment_executor := Some (after_pulls (S (length vs)) e);
                          cache := default (cache r) (last vs) |}]> h)).
Proof. intros E ? h l r e vs fuel. apply range_for_yields. Qed.

Lemma range_for_collects_witness :
  ∃ h', range_for 4 1%positive {[ 1%positive := make_range [5; 7; 2] ]}
          = Some (Ok ([5; 7; 2], {| range_ptr := Some 1%positive; at_end := true |}) h') ∧
        h' !! 1%positive = Some (buffer_range [] 2).
Proof.
  assert (({[ 1%positive := make_range [5; 7; 2] ]} : gmap loc _) !! 1%positive
          = Some (make_range [5; 7; 2])) as Hl by reflexivity.
  eexists. split.
  - apply (@range_for_collects (list nat) list_executor
             _ _ _ [5; 7; 2] [5; 7; 2] 4 Hl eq_refl).
    + intros k _. apply list_pull_result.
    + simpl. lia.
  - reflexivity.
Defined.


(** X2: the range is single-pass. When the executor keeps its contract, a
    second range-based for loop over a range that a first loop has gone
    through pushes back nothing, ends at once with its iterator at the end,
    and leaves in the cache what the first loop left there. *)
Theorem second_range_for_is_empty :
  ∀ `{Executor E} (h : gmap loc (alignment_range E)) l r e vs fuel fuel',
    h !! l = Some r → alignment_executor r = Some e →
    (∀ k, k ≤ length vs → pull_result k e = vs !! k) →
    exhaustion_is_permanent e →
    length vs < fuel → 0 < fuel' →
    ∃ it1 h1 it2 h2,
      range_for fuel l h = Some (Ok (vs, it1) h1) ∧
      range_for fuel' l h1 = Some (Ok ([], it2) h2) ∧
      eq_sentinel it2 = true ∧
      deref it2 h2 = deref it1 h1.
Proof.
  intros E ? h l r e vs fuel fuel' Hl He Hall Hperm Hfuel Hfuel'.
  eexists _, _, _, _.
  split; [by apply (range_for_yields h l r e vs fuel)|].
  assert (pull_result (S (length vs)) e = None) as Hnone.
  { apply Hperm. rewrite Hall by lia. apply lookup_ge_None_2. lia. }
  split.
  - apply (range_for_yields _ l
             {| alignment_executor := Some (after_pulls (S (length vs)) e);
                cache := default (cache r) (last vs) |}
             (after_pulls (S (length vs)) e) [] fuel');
      [apply lookup_insert_eq|done| |done].
    intros k Hk. assert (k = 0) as -> by (simpl in Hk; lia). exact Hnone.
  - split; [done|]. unfold deref. cbn [range_ptr].
    by rewrite !lookup_insert_eq.
Qed.

Lemma second_range_for_is_empty_witness :
  ∃ it1 h1 it2 h2,
    range_for 4 1%positive {[ 1%positive := make_range [5; 7; 2] ]}
      = Some (Ok ([5; 7; 2], it1) h1) ∧
    range_for 1 1%positive h1 = Some (Ok ([], it2) h2) ∧
    eq_sentinel it2 = true ∧
    deref it2 h2 = deref it1 h1.
Proof.
  assert (({[ 1%positive := make_range [5; 7; 2] ]} : gmap loc _) !! 1%positive
          = Some (make_range [5; 7; 2])) as Hl by reflexivity.
  apply (@second_range_for_is_empty (list nat) list_executor
           _ _ _ [5; 7; 2] [5; 7; 2] 4 1 Hl eq_refl).
  - intros k _. apply list_pull_result.
  - apply list_exhaustion_is_permanent.
  - simpl. lia.
  - lia.
Defined.

(** X3: whether the iterator that [begin()] returns is at the end is decided
    by the executor's first answer alone: it is at the end exactly when
    [bump] returned the empty optional, and then the cache is what it was
    before (for a fresh range, the value-initialised [value_type]). *)
Theorem begin_at_end_iff_first_pull_empty :
  ∀ `{Executor E} (h : gmap loc (alignment_range E)) l r e,
    h !! l = Some r → alignment_executor r = Some e →
    ∃ it h', begin l h = Ok it h' ∧
             (eq_sentinel it = true ↔ pull_result 0 e = None) ∧
             (pull_result 0 e = None → deref it h' = Some (cache r)) ∧
             (r = make_range e → pull_result 0 e = None →
                deref it h' = Some value_init).
Proof.
  intros E ? h l r e Hl He. eexists _, _.
  split; [by apply (begin_owning l h r e)|].
  unfold pull_result, eq_sentinel. cbn [after_pulls at_end].
  split_and!.
  - destruct (fst (bump e)); by split.
  - intros ->. by rewrite deref_insert.
  - intros -> ->. by rewrite deref_insert.
Qed.

Lemma begin_at_end_iff_first_pull_empty_witness :
  ∃ it h', begin 1%positive {[ 1%positive := make_range ([] : list nat) ]}
             = Ok it h' ∧
           eq_sentinel it = true ∧ deref it h' = Some 0.
Proof.
  assert (({[ 1%positive := make_range ([] : list nat) ]} : gmap loc _)
            !! 1%positive = Some (make_range [])) as Hl by reflexivity.
  destruct (begin_at_end_iff_first_pull_empty _ _ _ ([] : list nat) Hl eq_refl)
    as (it & h' & Hb & Hiff & _ & Hinit).
  exists it, h'. split; [exact Hb|]. split.
  - apply Hiff. reflexivity.
  - apply Hinit; reflexivity.
Defined.

(** ** Iterators share the range *)

(** X4: [begin()] fetches every time it is called. A second [begin()] on the
    same range pulls the executor's second result: the second iterator
    dereferences to it, and so does the first one, which was not
    incremented. *)
Theorem second_begin_fetches_again :
  ∀ `{Executor E} (h : gmap loc (alignment_range E)) l r e v0 v1,
    h !! l = Some r → alignment_executor r = Some e →
    pull_result 0 e = Some v0 → pull_result 1 e = Some v1 →
    ∃ it1 h1 it2 h2,
      begin l h = Ok it1 h1 ∧ deref it1 h1 = Some v0 ∧
      begin l h1 = Ok it2 h2 ∧ deref it2 h2 = Some v1 ∧
      deref it1 h2 = Some v1 ∧
      alignment_executor <$> h2 !! l = Some (Some (after_pulls 2 e)).
Proof.
  intros E ? h l r e v0 v1 Hl He H0 H1.
  unfold pull_result in H0, H1. cbn [after_pulls] in H0, H1.
  eexists _, _, _, _.
  split; [by apply (begin_owning l h r e)|].
  split; [rewrite deref_insert by done; cbn [cache]; by rewrite H0|].
  split; [by apply (begin_owning l _ _ (snd (bump e)) (lookup_insert_eq _ _ _))|].
  split_and!.
  - rewrite deref_insert by done. cbn [cache]. by rewrite H1.
  - rewrite deref_insert by done. cbn [cache]. by rewrite H1.
  - by rewrite lookup_insert_eq.
Qed.

Lemma second_begin_fetches_again_witness :
  ∃ it1 h1 it2 h2,
    begin 1%positive {[ 1%positive := make_range [5; 7; 2] ]} = Ok it1 h1 ∧
    deref it1 h1 = Some 5 ∧
    begin 1%positive h1 = Ok it2 h2 ∧ deref it2 h2 = Some 7 ∧
    deref it1 h2 = Some 7 ∧
    alignment_executor <$> h2 !! 1%positive = Some (Some [2]).
Proof.
  assert (({[ 1%positive := make_range [5; 7; 2] ]} : gmap loc _) !! 1%positive
          = Some (make_range [5; 7; 2])) as Hl by reflexivity.
  exact (@second_begin_fetches_again (list nat) list_executor
           _ _ _ [5; 7; 2] 5 7 Hl eq_refl eq_refl eq_refl).
Defined.

(** X5: [at_end] is not latched. An increment sets it from what this call of
    [bump] returned, so with an executor that returns a value after an empty
    optional, an iterator that compared equal to the sentinel compares
    unequal after the next increment and dereferences to the new value. *)
Theorem at_end_follows_last_pull :
  ∀ `{Executor E} (h : gmap loc (alignment_range E)) l r e v,
    h !! l = Some r → alignment_executor r = Some e →
    pull_result 0 e = None → pull_result 1 e = Some v →
    ∃ it0 h0 it1 h1,
      begin l h = Ok it0 h0 ∧ eq_sentinel it0 = true ∧
      pre_incr it0 h0 = Ok it1 h1 ∧ eq_sentinel it1 = false ∧
      deref it1 h1 = Some v.
Proof.
  intros E ? h l r e v Hl He H0 H1.
  unfold pull_result in H0, H1. cbn [after_pulls] in H0, H1.
  eexists _, _, _, _.
  split; [by apply (begin_owning l h r e)|].
  split; [unfold eq_sentinel; cbn [at_end]; by rewrite H0|].
  split; [eapply (pre_incr_owning _ l _ _ (snd (bump e)));
            [reflexivity|apply lookup_insert_eq|reflexivity]|].
  unfold eq_sentinel. cbn [at_end]. rewrite H1. split; [done|].
  by rewrite deref_insert.
Qed.

Lemma at_end_follows_last_pull_witness :
  ¬ exhaustion_is_permanent [None; Some 4] ∧
  ∃ it0 h0 it1 h1,
    begin 1%positive {[ 1%positive := make_range [None; Some 4] ]} = Ok it0 h0 ∧
    eq_sentinel it0 = true ∧
    pre_incr it0 h0 = Ok it1 h1 ∧ eq_sentinel it1 = false ∧
    deref it1 h1 = Some 4.
Proof.
  split.
  - intros Hperm. specialize (Hperm 0 eq_refl). discriminate Hperm.
  - assert (({[ 1%positive := make_range [None; Some 4] ]} : gmap loc _)
              !! 1%positive = Some (make_range [None; Some 4])) as Hl
      by reflexivity.
    exact (@at_end_follows_last_pull (list (option nat)) script_executor
             _ _ _ [None; Some 4] 4 Hl eq_refl eq_refl eq_refl).
Defined.

(** ** What a run of increments and comparisons touches *)

Section Runs.
Context `{Executor E}.
Implicit Types (r : alignment_range E) (h : gmap loc (alignment_range E)).
Implicit Types (it : alignment_range_iterator) (e : E) (l : loc).

Lemma pre_incr_frame it h it' h' :
  pre_incr it h = Ok it' h' →
  range_ptr it' = range_ptr it ∧
  (∀ l', range_ptr it ≠ Some l' → h' !! l' = h !! l') ∧
  (∀ l', is_Some (h' !! l') ↔ is_Some (h !! l')).
Proof.
  unfold pre_incr, range_next. destruct (range_ptr it) as [l|]; [|done].
  destruct (h !! l) as [r|] eqn:Hl; [|done].
  destruct (next r) as [e|[b r']]; [done|]. cbn [bind]. intros [= <- <-].
  split_and!; [done| |].
  - intros l' Hne. rewrite lookup_insert_ne; [done|congruence].
  - intros l'. destruct (decide (l = l')) as [<-|Hne].
    + rewrite lookup_insert_eq, Hl. split; eauto.
    + by rewrite lookup_insert_ne.
Qed.

Lemma run_ops_frame ops :
  ∀ it h tr it' h',
    run_ops ops it h = Ok (tr, it') h' →
    range_ptr it' = range_ptr it ∧
    (∀ l', range_ptr it ≠ Some l' → h' !! l' = h !! l') ∧
    (∀ l', is_Some (h' !! l') ↔ is_Some (h !! l')).
Proof.
  induction ops as [|op ops IH]; intros it h tr it' h'.
  { intros [= <- <- <-]. done. }
  assert (∀ b, bind (run_ops ops it h)
                    (λ a h'', Ok ((op, b) :: fst a, snd a) h'') = Ok (tr, it') h' →
               range_ptr it' = range_ptr it ∧
               (∀ l', range_ptr it ≠ Some l' → h' !! l' = h !! l') ∧
               (∀ l', is_Some (h' !! l') ↔ is_Some (h !! l'))) as Hobs.
  { intros b. destruct (run_ops ops it h) as [[tr0 it0] h0| |] eqn:Hrun; [|done..].
    cbn [bind fst snd]. intros [= <- <- <-]. by eapply IH. }
  assert (bind (pre_incr it h) (run_ops ops) = Ok (tr, it') h' →
          range_ptr it' = range_ptr it ∧
          (∀ l', range_ptr it ≠ Some l' → h' !! l' = h !! l') ∧
          (∀ l', is_Some (h' !! l') ↔ is_Some (h !! l'))) as Hincr.
  { destruct (pre_incr it h) as [it1 h1| |] eqn:Hi; [|done..]. cbn [bind].
    intros Hrun. destruct (pre_incr_frame _ _ _ _ Hi) as (Hp1 & Hf1 & Hd1).
    destruct (IH _ _ _ _ _ Hrun) as (Hp2 & Hf2 & Hd2).
    split_and!.
    - congruence.
    - intros l' Hne. rewrite Hf2 by congruence. by apply Hf1.
    - intros l'. by rewrite Hd2. }
  destruct op; cbn [run_ops]; first [exact Hincr|apply Hobs].
Qed.

(** A run on an iterator whose range owns an executor goes through. *)
Lemma run_ops_owning ops :
  ∀ it h l r e,
    range_ptr it = Some l → h !! l = Some r → alignment_executor r = Some e →
    ∃ tr it' h' r',
      run_ops ops it h = Ok (tr, it') h' ∧
      range_ptr it' = Some l ∧ h' !! l = Some r' ∧
      alignment_executor r' = Some (after_pulls (count_incr ops) e) ∧
      length tr + count_incr ops = length ops.
Proof.
  induction ops as [|op ops IH]; intros it h l r e Hp Hl He.
  { by exists [], it, h, r. }
  assert (∀ b, is_incr op = false →
            ∃ tr it' h' r',
              bind (run_ops ops it h)
                   (λ a h'', Ok ((op, b) :: fst a, snd a) h'') = Ok (tr, it') h' ∧
              range_ptr it' = Some l ∧ h' !! l = Some r' ∧
              alignment_executor r' = Some (after_pulls (count_incr (op :: ops)) e) ∧
              length tr + count_incr (op :: ops) = length (op :: ops)) as Hobs.
  { intros b Hop. destruct (IH it h l r e Hp Hl He)
      as (tr & it' & h' & r' & Hrun & Hp' & Hl' & He' & Hlen).
    exists ((op, b) :: tr), it', h', r'. rewrite Hrun.
    cbn [bind fst snd count_incr]. rewrite Hop.
    split_and!; [done..|]. simpl. lia. }
  assert (is_incr op = true →
          ∃ tr it' h' r',
            bind (pre_incr it h) (run_ops ops) = Ok (tr, it') h' ∧
            range_ptr it' = Some l ∧ h' !! l = Some r' ∧
            alignment_executor r' = Some (after_pulls (count_incr (op :: ops)) e) ∧
            length tr + count_incr (op :: ops) = length (op :: ops)) as Hincr.
  { intros Hop. rewrite (pre_incr_owning it l h r e Hp Hl He). cbn [bind].
    match goal with
    | |- context [run_ops ops ?it1 ?h1] =>
        destruct (IH it1 h1 l _ (snd (bump e)) eq_refl
                    (lookup_insert_eq _ _ _) eq_refl)
          as (tr & it' & h' & r' & Hrun & Hp' & Hl' & He' & Hlen)
    end.
    exists tr, it', h', r'. cbn [count_incr]. rewrite Hop.
    split_and!; [done..|]. simpl. lia. }
  destruct op; cbn [run_ops]; first [by apply Hincr|by apply Hobs].
Qed.

Lemma counted_after_pulls k :
  ∀ (e : E) n,
    after_pulls k (Counted e n) = Counted (after_pulls k e) (n + k).
Proof.
  induction k as [|k IH]; intros e n.
  - cbn [after_pulls]. f_equal. lia.
  - cbn [after_pulls]. cbn [bump counted_executor counted_bump snd inner pulls].
    rewrite IH. f_equal. lia.
Qed.

End Runs.

(** X6: a run of increments and comparisons on an iterator changes at most
    the range the iterator points to: every other range in the store is as
    before, no range appears or disappears, and the iterator still points to
    the same range. *)
Theorem run_changes_only_its_range :
  ∀ `{Executor E} ops it (h h' : gmap loc (alignment_range E)) tr it',
    run_ops ops it h = Ok (tr, it') h' →
    range_ptr it' = range_ptr it ∧
    (∀ l', range_ptr it ≠ Some l' → h' !! l' = h !! l') ∧
    (∀ l', is_Some (h' !! l') ↔ is_Some (h !! l')).
Proof. intros E ? ops it h h' tr it'. apply run_ops_frame. Qed.

Lemma run_changes_only_its_range_witness :
  ∃ tr it' h',
    run_ops [OpPreIncr; OpNe; OpPostIncr]
      {| range_ptr := Some 1%positive; at_end := false |}
      (<[ 2%positive := make_range [8; 9] ]> {[ 1%positive := buffer_range [7; 2] 5 ]})
      = Ok (tr, it') h' ∧
    range_ptr it' = Some 1%positive ∧
    h' !! 2%positive = Some (make_range [8; 9]).
Proof.
  eexists _, _, _. split; [reflexivity|].
  edestruct (@run_changes_only_its_range (list nat) list_executor
               [OpPreIncr; OpNe; OpPostIncr]
               {| range_ptr := Some 1%positive; at_end := false |}
               (<[ 2%positive := make_range [8; 9] ]>
                  {[ 1%positive := buffer_range [7; 2] 5 ]}))
    as (Hp & Hf & _); [reflexivity|].
  split; [exact Hp|].
  etrans; [apply (Hf 2%positive); discriminate|reflexivity].
Defined.





(** ** Moves and iterators *)

(** X9: an iterator keeps pointing to the range object it was made from.
    After that range has been moved into another one, incrementing the
    iterator throws the [runtime_error] and changes nothing, and the iterator
    dereferences to the moved-from cache; a new [begin()] on the target goes
    on with the executor's next result. *)
Theorem iterator_stays_with_moved_from_range :
  ∀ `{Executor E} (h : gmap loc (alignment_range E)) l dst r e v,
    h !! l = Some r → alignment_executor r = Some e →
    pull_result 0 e = Some v → dst ≠ l →
    ∃ it h1 h2 it2 h3,
      begin l h = Ok it h1 ∧
      range_move dst l h1 = Some h2 ∧
      pre_incr it h2 = Throw no_buffer h2 ∧
      deref it h2 = Some (moved_from v) ∧
      begin dst h2 = Ok it2 h3 ∧
      range_ptr it2 = Some dst ∧
      (eq_sentinel it2 = true ↔ pull_result 1 e = None) ∧
      (∀ w, pull_result 1 e = Some w → deref it2 h3 = Some w).
Proof.
  intros E ? h l dst r e v Hl He H0 Hne.
  unfold pull_result. unfold pull_result in H0. cbn [after_pulls] in *.
  set (r1 := {| alignment_executor := Some (snd (bump e)); cache := v |}).
  set (h1 := <[l := r1]> h).
  set (h2 := <[dst := fst (move_range r1)]> (<[l := snd (move_range r1)]> h1)).
  assert (h2 !! l = Some (snd (move_range r1))) as Hl2.
  { unfold h2. rewrite lookup_insert_ne by done. apply lookup_insert_eq. }
  assert (h2 !! dst = Some (fst (move_range r1))) as Hd2.
  { unfold h2. apply lookup_insert_eq. }
  eexists {| range_ptr := Some l; at_end := false |}, h1, h2, _, _.
  split_and!.
  - rewrite (begin_owning l h r e Hl He), H0. done.
  - unfold range_move, h1. rewrite lookup_insert_eq. by rewrite decide_False.
  - unfold pre_incr. cbn [range_ptr].
    by rewrite (range_next_empty l h2 _ Hl2).
  - unfold deref. cbn [range_ptr]. by rewrite Hl2.
  - by apply (begin_owning dst h2 _ (snd (bump e)) Hd2).
  - done.
  - unfold eq_sentinel. cbn [at_end]. destruct (fst (bump (snd (bump e)))); by split.
  - intros w Hw. rewrite deref_insert by done. cbn [cache]. by rewrite Hw.
Qed.

Lemma iterator_stays_with_moved_from_range_witness :
  ∃ it h1 h2 it2 h3,
    begin 1%positive {[ 1%positive := make_range [5; 7; 2] ]} = Ok it h1 ∧
    range_move 2%positive 1%positive h1 = Some h2 ∧
    pre_incr it h2 = Throw no_buffer h2 ∧
    begin 2%positive h2 = Ok it2 h3 ∧
    deref it2 h3 = Some 7.
Proof.
  assert (({[ 1%positive := make_range [5; 7; 2] ]} : gmap loc _) !! 1%positive
          = Some (make_range [5; 7; 2])) as Hl by reflexivity.
  assert (2%positive ≠ 1%positive) as Hne by discriminate.
  destruct (@iterator_stays_with_moved_from_range (list nat) list_executor
              _ _ _ _ [5; 7; 2] 5 Hl eq_refl eq_refl Hne)
    as (it & h1 & h2 & it2 & h3 & Hb & Hm & Ht & _ & Hb2 & _ & _ & Hd).
  exists it, h1, h2, it2, h3. split_and!; [done..|]. by apply Hd.
Defined.

(** X10: moving a range into another one and back restores it: the first
    range has its executor and its cache again, the second is left without
    an executor, and no other range in the store has changed. *)
Theorem move_there_and_back :
  ∀ `{Executor E} (h : gmap loc (alignment_range E)) a b rA,
    a ≠ b → h !! a = Some rA →
    ∃ h1 h2 rB,
      range_move b a h = Some h1 ∧
      range_move a b h1 = Some h2 ∧
      h2 !! a = Some rA ∧
      h2 !! b = Some rB ∧ alignment_executor rB = None ∧
      (∀ l, l ≠ a → l ≠ b → h2 !! l = h !! l).
Proof.
  intros E ? h a b rA Hne Ha.
  assert (fst (move_range rA) = rA) as Hfst by by destruct rA.
  eexists _, _, _. split_and!.
  - unfold range_move. rewrite Ha, decide_False by done. reflexivity.
  - unfold range_move. rewrite lookup_insert_eq, decide_False by done.
    reflexivity.
  - by rewrite lookup_insert_eq, !Hfst.
  - rewrite lookup_insert_ne by done. apply lookup_insert_eq.
  - done.
  - intros l Hla Hlb. by rewrite !lookup_insert_ne.
Qed.

Lemma move_there_and_back_witness :
  ∃ h1 h2 rB,
    range_move 2%positive 1%positive {[ 1%positive := buffer_range [7; 2] 5 ]}
      = Some h1 ∧
    range_move 1%positive 2%positive h1 = Some h2 ∧
    h2 !! 1%positive = Some (buffer_range [7; 2] 5) ∧
    h2 !! 2%positive = Some rB ∧ alignment_executor rB = None.
Proof.
  assert (({[ 1%positive := buffer_range [7; 2] 5 ]} : gmap loc _) !! 1%positive
          = Some (buffer_range [7; 2] 5)) as Hl by reflexivity.
  assert (1%positive ≠ 2%positive) as Hne by discriminate.
  destruct (move_there_and_back _ _ _ _ Hne Hl)
    as (h1 & h2 & rB & Hm1 & Hm2 & Ha & Hb & Hnone & _).
  by exists h1, h2, rB.
Defined.

(** ** Pointers to the element and the default iterator *)

(** X11: the pointer the iterator's member access operator returns is the
    address of the range's cache, so increments do not change it: after any
    run of increments and comparisons the iterator returns the same pointer,
    and reading through the pointer obtained before the run gives the
    element the iterator dereferences to after it, not the earlier one. *)
Theorem pointer_to_element_is_stable :
  ∀ `{Executor E} ops it (h h' : gmap loc (alignment_range E)) tr it' p,
    arrow it = Some p →
    run_ops ops it h = Ok (tr, it') h' →
    arrow it' = Some p ∧ load p h' = deref it' h'.
Proof.
  intros E ? ops it h h' tr it' p Hp Hrun.
  destruct (run_ops_frame ops it h tr it' h' Hrun) as (Hptr & _ & _).
  unfold arrow in *. rewrite Hptr. split; [done|].
  unfold load, deref. rewrite Hptr.
  destruct (range_ptr it) as [l|]; [|done].
  by injection Hp as <-.
Qed.

Lemma pointer_to_element_is_stable_witness :
  ∃ p tr it' h',
    arrow {| range_ptr := Some 1%positive; at_end := false |} = Some p ∧
    load p {[ 1%positive := buffer_range [7; 2] 5 ]} = Some 5 ∧
    run_ops [OpPreIncr; OpPreIncr]
      {| range_ptr := Some 1%positive; at_end := false |}
      {[ 1%positive := buffer_range [7; 2] 5 ]} = Ok (tr, it') h' ∧
    arrow it' = Some p ∧ load p h' = Some 2.
Proof.
  eexists _, _, _, _. split; [reflexivity|]. split; [reflexivity|].
  split; [reflexivity|].
  edestruct (@pointer_to_element_is_stable (list nat) list_executor
               [OpPreIncr; OpPreIncr]
               {| range_ptr := Some 1%positive; at_end := false |}
               {[ 1%positive := buffer_range [7; 2] 5 ]})
    as (Ha & Hload); [reflexivity|reflexivity|].
  split; [exact Ha|reflexivity].
Defined.

(** X12: a default-constructed iterator can be compared and nothing else. A
    run that consists of comparisons returns "at the end" for each of them
    and leaves iterator and store alone; a run with an increment in it fails
    the iterator's assertion on its null pointer, and the iterator
    dereferences to nothing. *)
Theorem default_iterator_only_compares :
  ∀ `{Executor E} ops (h : gmap loc (alignment_range E)),
    run_ops ops default_iterator h =
      (if decide (count_incr ops = 0)
       then Ok (map (λ op, (op, answer_at_end op)) ops, default_iterator) h
       else Undefined) ∧
    deref default_iterator h = None ∧
    arrow default_iterator = None.
Proof.
  intros E ? ops h. split; [|done].
  induction ops as [|op ops IH]; [done|].
  destruct op; cbn [run_ops count_incr is_incr]; try done;
    rewrite IH; cbn [Nat.add]; by case_decide.
Qed.
